(** * transform_reduce: a multi-pass device reduction, and what its host loop guarantees

    Source: [include/sycl/algorithm/transform_reduce.hpp]
    ([sycl::impl::transform_reduce]).

    The host function is embedded as explicit state passing over a record
    holding the loop variables ([passes], [length]), the contents of the
    partial-result buffer [bufR] and the list of host-side actions performed
    so far.  Sizes are [nat]: no size computed by the function exceeds twice
    the input length, so machine wrap-around never occurs on inputs that fit
    in memory.

    Device storage is a list of cells; a cell either holds a value or is
    indeterminate (never written, or written from scratch memory that no
    work-item staged). *)

From Stdlib Require Import Arith Lia.
From stdpp Require Import base list.

(** ** Device storage *)

Inductive cell (T : Type) : Type :=
| Indet
| Val (v : T).
Arguments Indet {T}.
Arguments Val {T} v.

(** Applying an operator to cells: an indeterminate operand makes the
    result indeterminate. *)
Definition cell_map {T U : Type} (f : T -> U) (x : cell T) : cell U :=
  match x with
  | Val a => Val (f a)
  | Indet => Indet
  end.

Definition cell_map2 {T : Type} (f : T -> T -> T) (x y : cell T) : cell T :=
  match x, y with
  | Val a, Val b => Val (f a b)
  | _, _ => Indet
  end.

(** ** Work-item identity and the order in which work-groups run *)

(** [cl::sycl::nd_item]: what a work-item knows about its position. *)
Record nd_item := {
  get_global : nat;
  get_local : nat;
  get_group : nat
}.

(** The work-item with local index [lid] of group [g], for groups of [local]
    work-items. *)
Definition item_of (local g lid : nat) : nd_item :=
  {| get_global := g * local + lid; get_local := lid; get_group := g |}.

(** Work-groups of one kernel run in an order the device chooses.  The order
    is built by placing groups 0, 1, 2, ... in turn at a chosen position
    among those already placed, so every choice of positions yields a
    permutation of the group indices and every permutation is reachable. *)
Definition insert_at (k x : nat) (l : list nat) : list nat :=
  take k l ++ x :: drop k l.

Definition group_order (pos : nat -> nat) (ngroups : nat) : list nat :=
  foldl (fun acc g => insert_at (pos g) g acc) [] (seq 0 ngroups).

(** The execution policy as far as [transform_reduce] looks at it: the
    device's [max_work_group_size], and the device's freedom to order the
    work-groups of pass [p] ([group_position p g] is where group [g] is
    inserted). *)
Record ExecutionPolicy := {
  max_work_group_size : nat;
  group_position : nat -> nat -> nat
}.

(** Modelled from the spec: [ExecutionPolicy::calculateGlobalSize] is not in
    the source tree; the global size is the smallest multiple of [local]
    that is at least [elements] (ceiling division). *)
Definition calculateGlobalSize (elements local : nat) : nat :=
  ((elements + local - 1) / local) * local.

(** ** The reduction strategy (per work-group algorithm) *)

Module ReductionStrategy.
Section strategy.
Context {A T : Type}.

(** The constructor arguments [ReductionStrategy<T>(local, length, id,
    scratch)]; the scratch array is the list the group stages below. *)
Record t := {
  local_ : nat;
  length_ : nat;
  id_ : nd_item
}.

(** Modelled from the spec: [ReductionStrategy::workitem_get_from(op,
    input)] is not in the source tree.  The work-item reads one element of
    the input at its global index and applies the unary transform; a
    work-item whose global index is past the logical length is excluded
    (it stages nothing). *)
Definition workitem_get_from_op (r : t) (op : A -> T) (input : list A)
  : option (cell T) :=
  if get_global (id_ r) <? length_ r
  then Some (match input !! get_global (id_ r) with
             | Some x => Val (op x)
             | None => Indet
             end)
  else None.

(** Modelled from the spec: [ReductionStrategy::workitem_get_from(input)]
    is not in the source tree.  The work-item reads the already combined
    value at its global index, with no transform; same exclusion. *)
Definition workitem_get_from (r : t) (input : list (cell T))
  : option (cell T) :=
  if get_global (id_ r) <? length_ r
  then Some (default Indet (input !! get_global (id_ r)))
  else None.

(** Folding one pair of scratch entries; [None] is the slot of an
    excluded work-item, which is skipped. *)
Definition fold_pair (bop : T -> T -> T) (x y : option (cell T))
  : option (cell T) :=
  match x, y with
  | Some a, Some b => Some (cell_map2 bop a b)
  | Some a, None => Some a
  | None, _ => y
  end.

(** One round of the tree: neighbouring entries are folded, which halves
    the number of active entries and keeps their order. *)
Fixpoint fold_round (bop : T -> T -> T) (scratch : list (option (cell T)))
  : list (option (cell T)) :=
  match scratch with
  | x :: y :: rest => fold_pair bop x y :: fold_round bop rest
  | _ => scratch
  end.

Fixpoint tree_rounds (bop : T -> T -> T) (rounds : nat)
    (scratch : list (option (cell T))) : list (option (cell T)) :=
  match rounds with
  | 0 => scratch
  | S k =>
      match scratch with
      | _ :: _ :: _ => tree_rounds bop k (fold_round bop scratch)
      | _ => scratch
      end
  end.

(** Modelled from the spec: [ReductionStrategy::combine_threads] is not in
    the source tree.  Rounds of pairwise folds until one combined value
    remains for the group ([length scratch] rounds are always enough). *)
Definition combine_threads (bop : T -> T -> T)
    (scratch : list (option (cell T))) : option (cell T) :=
  default None (head (tree_rounds bop (length scratch) scratch)).

(** Modelled from the spec: [ReductionStrategy::workgroup_write_to] is not
    in the source tree.  The work-item with local index 0 writes the
    group's combined value to the slot of the group's index; a group in
    which no work-item staged anything writes an indeterminate value. *)
Definition workgroup_write_to (r : t) (combined : option (cell T))
    (output : list (cell T)) : list (cell T) :=
  if get_local (id_ r) =? 0
  then <[get_group (id_ r) := default Indet combined]> output
  else output.
End strategy.
End ReductionStrategy.

(** ** The kernel and the host function *)

(** What the host does, in program order. *)
Inductive event :=
| EvQueue                                  (* cl::sycl::queue q(exec.get_queue()) *)
| EvBufR (size : nat)                      (* cl::sycl::buffer<T,1> bufR(range(vectorSize)) *)
| EvDeviceInfo                             (* q.get_device(), get_info<max_work_group_size> *)
| EvBufI (size : nat)                      (* make_const_buffer(first, last) *)
| EvSubmit (passes length local global : nat)  (* q.submit(f), with what f captured *)
| EvWait                                   (* q.wait_and_throw() *)
| EvHostRead (index : nat).                (* host accessor, hR[index] *)

Section transform_reduce.
Context {A T : Type}.
Variable exec : ExecutionPolicy.
Variable unary_op : A -> T.
Variable binary_op : T -> T -> T.

(** The loop variables that change, the contents of [bufR], and the
    actions so far. *)
Record host_state := {
  h_passes : nat;
  h_length : nat;
  h_bufR : list (cell T);
  h_trace : list event
}.

(** Ingest step of the kernel body (lines 88-93): pass 0 reads the input
    through [unary_op], later passes read [aR]. *)
Definition ingest (passes local length : nat) (aI : list A)
    (aR : list (cell T)) (id : nd_item) : option (cell T) :=
  let r := {| ReductionStrategy.local_ := local;
              ReductionStrategy.length_ := length;
              ReductionStrategy.id_ := id |} in
  if passes =? 0
  then ReductionStrategy.workitem_get_from_op r unary_op aI
  else ReductionStrategy.workitem_get_from r aR.

(** The scratch array of group [g] once every work-item of the group has
    staged its value (the barrier that ends the ingest step). *)
Definition staged (passes local length : nat) (aI : list A)
    (aR : list (cell T)) (g : nat) : list (option (cell T)) :=
  (fun lid => ingest passes local length aI aR (item_of local g lid))
    <$> seq 0 local.

(** One work-group running the kernel body (lines 86-95): its work-items
    stage their values, the group combines them, and every work-item runs the
    write-back step (in which only local index 0 writes). *)
Definition work_group (passes local length : nat) (aI : list A)
    (aR : list (cell T)) (g : nat) : list (cell T) :=
  let combined :=
    ReductionStrategy.combine_threads binary_op
      (staged passes local length aI aR g) in
  foldl (fun out lid =>
           let r := {| ReductionStrategy.local_ := local;
                       ReductionStrategy.length_ := length;
                       ReductionStrategy.id_ := item_of local g lid |} in
           ReductionStrategy.workgroup_write_to r combined out)
        aR (seq 0 local).

(** [h.parallel_for(r, ...)] over the range [r = {global_range, local}]:
    every group of the range runs once, in the device's order. *)
Definition parallel_for (global_range passes local length : nat)
    (aI : list A) (aR : list (cell T)) : list (cell T) :=
  foldl (fun buf g => work_group passes local length aI buf g) aR
        (group_order (group_position exec passes) (global_range / local)).

(** [q.submit(f)] (lines 73-98).  [f] captured [passes], [length], [local]
    and [global] by value; both accessors of [bufR] are read-write, so the
    queue runs the kernels of successive submissions one after the other. *)
Definition submit (local global : nat) (aI : list A) (st : host_state)
  : host_state :=
  let global_range := Nat.max global local in
  {| h_passes := h_passes st;
     h_length := h_length st;
     h_bufR := parallel_for global_range (h_passes st) local (h_length st)
                 aI (h_bufR st);
     h_trace := h_trace st
                ++ [EvSubmit (h_passes st) (h_length st) local global_range] |}.

(** The body of the do-while (lines 73-100). *)
Definition loop_body (local global : nat) (aI : list A) (st : host_state)
  : host_state :=
  let st1 := submit local global aI st in
  {| h_passes := S (h_passes st1);
     h_length := h_length st1 / local;
     h_bufR := h_bufR st1;
     h_trace := h_trace st1 |}.

(** [do { ... } while (length > 1)], run for at most [fuel] iterations.
    The flag tells whether the loop was left. *)
Fixpoint do_while (fuel local global : nat) (aI : list A) (st : host_state)
  : host_state * bool :=
  match fuel with
  | 0 => (st, false)
  | S k =>
      let st' := loop_body local global aI st in
      if 1 <? h_length st'
      then do_while k local global aI st'
      else (st', true)
  end.

(** The state at loop entry (lines 55-70), for a non-empty input. *)
Definition loop_entry (s : list A) : host_state :=
  {| h_passes := 0;
     h_length := length s;
     h_bufR := replicate (length s) Indet;
     h_trace := [EvQueue; EvBufR (length s); EvDeviceInfo; EvBufI (length s)] |}.

(** What a call that returns hands back, and what the host did. *)
Record outcome := {
  ret : cell T;
  actions : list event
}.

(** Lines 62-101: the sizes chosen at call start, then the loop. *)
Definition run_loop (fuel : nat) (s : list A) : host_state * bool :=
  let vectorSize := length s in
  let local := Nat.min (max_work_group_size exec) vectorSize in
  let global := calculateGlobalSize vectorSize local in
  do_while fuel local global s (loop_entry s).

(** [transform_reduce(exec, first, last, unary_op, init, binary_op)]; [s]
    is the range [first, last).  [None]: the loop is still running after
    [fuel] iterations. *)
Definition transform_reduce (fuel : nat) (s : list A) (init : T)
  : option outcome :=
  let vectorSize := length s in
  if vectorSize <? 1
  then Some {| ret := Val init; actions := [EvQueue; EvBufR vectorSize] |}
  else
    match run_loop fuel s with
    | (_, false) => None
    | (st, true) =>
        Some {| ret := cell_map (fun d => binary_op d init)
                         (default Indet (h_bufR st !! 0));
                actions := h_trace st ++ [EvWait; EvHostRead 0] |}
    end.
End transform_reduce.

(** A device with the given maximal group size that runs groups in
    ascending order, and one that runs them in descending order. *)
Definition ascending (maxwg : nat) : ExecutionPolicy :=
  {| max_work_group_size := maxwg; group_position := fun _ g => g |}.

Definition descending (maxwg : nat) : ExecutionPolicy :=
  {| max_work_group_size := maxwg; group_position := fun _ _ => 0 |}.

(** ** Reading the host's actions *)

Definition is_submit (e : event) : bool :=
  match e with
  | EvSubmit _ _ _ _ => true
  | _ => false
  end.

Definition is_wait (e : event) : bool :=
  match e with
  | EvWait => true
  | _ => false
  end.

Definition is_buffer_creation (e : event) : bool :=
  match e with
  | EvBufR _ | EvBufI _ => true
  | _ => false
  end.

(** The pass numbers of the submissions of a trace, in order. *)
Definition submitted_passes (tr : list event) : list nat :=
  omap (fun e => match e with
                 | EvSubmit p _ _ _ => Some p
                 | _ => None
                 end) tr.

(** The group sizes of the submissions of a trace, in order. *)
Definition submitted_locals (tr : list event) : list nat :=
  omap (fun e => match e with
                 | EvSubmit _ _ l _ => Some l
                 | _ => None
                 end) tr.

(** The logical lengths captured by the submissions of a trace, in order. *)
Definition submitted_lengths (tr : list event) : list nat :=
  omap (fun e => match e with
                 | EvSubmit _ len _ _ => Some len
                 | _ => None
                 end) tr.

(** The global sizes of the ranges of the submissions of a trace, in
    order. *)
Definition submitted_ranges (tr : list event) : list nat :=
  omap (fun e => match e with
                 | EvSubmit _ _ _ g => Some g
                 | _ => None
                 end) tr.

(** The submissions the loop makes in at most [fuel] iterations, as a
    function of the loop variables alone. *)
Fixpoint submissions (fuel local global_range passes length : nat)
  : list event :=
  match fuel with
  | 0 => []
  | S k =>
      EvSubmit passes length local global_range
      :: (if 1 <? length / local
          then submissions k local global_range (S passes) (length / local)
          else [])
  end.

(** Whether every submission is followed by a wait before the next
    submission; [pending] tells that a submission has not been waited for. *)
Fixpoint waits_between (pending : bool) (tr : list event) : bool :=
  match tr with
  | [] => true
  | e :: rest =>
      if is_submit e then negb pending && waits_between true rest
      else if is_wait e then waits_between false rest
      else waits_between pending rest
  end.

(** No device buffer is created and no kernel is submitted. *)
Definition no_device_interaction (tr : list event) : bool :=
  forallb (fun e => negb (is_buffer_creation e || is_submit e)) tr.

(** The sequential reference: [x1 (+) x2 (+) ... (+) xn], from the left. *)
Definition fold1 {T : Type} (bop : T -> T -> T) (x : T) (xs : list T) : T :=
  foldl bop x xs.

(** The scratch entries of a group folded in order, excluded slots
    skipped. *)
Definition fold_scratch {T : Type} (bop : T -> T -> T)
    (scratch : list (option (cell T))) : option (cell T) :=
  foldr (ReductionStrategy.fold_pair bop) None scratch.

(** The cells the work-items of a pass read: the transformed input at pass
    0, the partial-result buffer afterwards. *)
Definition pass_source {A T : Type} (unary_op : A -> T) (passes : nat)
    (aI : list A) (aR : list (cell T)) : list (cell T) :=
  if passes =? 0 then (fun x => Val (unary_op x)) <$> aI else aR.

(** ** Facts about the tree-combine *)

Section strategy_facts.
Context {T : Type}.
Variable bop : T -> T -> T.

Import ReductionStrategy.

Lemma list_pair_ind {X : Type} (P : list X -> Prop) :
  P [] -> (forall x, P [x]) -> (forall x y l, P l -> P (x :: y :: l)) ->
  forall l, P l.
Proof.
  intros H0 H1 H2 l.
  assert (H : P l /\ forall x, P (x :: l)); [|exact (proj1 H)].
  induction l as [|y l [IH1 IH2]]; split; auto.
Qed.

Lemma fold_pair_None_r (x : option (cell T)) : fold_pair bop x None = x.
Proof. destruct x; reflexivity. Qed.

Lemma fold_round_length_le (l : list (option (cell T))) :
  length (fold_round bop l) <= length l.
Proof. induction l using list_pair_ind; simpl; lia. Qed.

Lemma fold_round_length_lt (l : list (option (cell T))) :
  2 <= length l -> length (fold_round bop l) < length l.
Proof.
  destruct l as [|x [|y l]]; simpl; try lia.
  intros _. pose proof (fold_round_length_le l). lia.
Qed.

Lemma tree_rounds_short k (l : list (option (cell T))) :
  length l <= 1 -> tree_rounds bop k l = l.
Proof. destruct k, l as [|x [|y l]]; simpl; auto; lia. Qed.

Lemma tree_rounds_S k (l : list (option (cell T))) :
  tree_rounds bop (S k) l = tree_rounds bop k (fold_round bop l).
Proof.
  destruct l as [|x [|y l]]; simpl; auto;
    rewrite tree_rounds_short; simpl; auto.
Qed.

Lemma tree_rounds_done k (l : list (option (cell T))) :
  length l <= S k -> length (tree_rounds bop k l) <= 1.
Proof.
  revert l. induction k as [|k IH]; intros l Hl; [exact Hl|].
  rewrite tree_rounds_S. apply IH.
  destruct (decide (2 <= length l)) as [H2|H2].
  - pose proof (fold_round_length_lt l H2). lia.
  - pose proof (fold_round_length_le l). lia.
Qed.









End strategy_facts.

(** With an associative operator the tree computes the in-order fold. *)
Section strategy_assoc.
Context {T : Type}.
Variable bop : T -> T -> T.
Hypothesis bop_assoc : forall a b c, bop a (bop b c) = bop (bop a b) c.

Import ReductionStrategy.

Lemma cell_map2_assoc (x y z : cell T) :
  cell_map2 bop x (cell_map2 bop y z) = cell_map2 bop (cell_map2 bop x y) z.
Proof. destruct x, y, z; simpl; congruence. Qed.

Lemma fold_pair_assoc (x y z : option (cell T)) :
  fold_pair bop x (fold_pair bop y z) = fold_pair bop (fold_pair bop x y) z.
Proof.
  destruct x, y, z; simpl; try reflexivity. now rewrite cell_map2_assoc.
Qed.

Lemma fold_round_scratch (l : list (option (cell T))) :
  fold_scratch bop (fold_round bop l) = fold_scratch bop l.
Proof.
  induction l as [|x|x y l IH] using list_pair_ind; try reflexivity.
  change (fold_pair bop (fold_pair bop x y)
            (fold_scratch bop (fold_round bop l))
          = fold_pair bop x (fold_pair bop y (fold_scratch bop l))).
  now rewrite IH, fold_pair_assoc.
Qed.

Lemma tree_rounds_scratch k (l : list (option (cell T))) :
  fold_scratch bop (tree_rounds bop k l) = fold_scratch bop l.
Proof.
  revert l. induction k as [|k IH]; intros l; [reflexivity|].
  now rewrite tree_rounds_S, IH, fold_round_scratch.
Qed.

Lemma combine_threads_fold (l : list (option (cell T))) :
  combine_threads bop l = fold_scratch bop l.
Proof.
  unfold combine_threads. rewrite <- (tree_rounds_scratch (length l) l).
  pose proof (tree_rounds_done bop (length l) l) as Hd.
  destruct (tree_rounds bop (length l) l) as [|x [|y r]]; simpl in *.
  - reflexivity.
  - now rewrite fold_pair_None_r.
  - lia.
Qed.

Lemma foldl_assoc (x y : T) (ys : list T) :
  bop x (foldl bop y ys) = foldl bop (bop x y) ys.
Proof.
  revert y. induction ys as [|z ys IH]; intros y; [reflexivity|].
  simpl. now rewrite IH, bop_assoc.
Qed.

Lemma fold_scratch_values (x : T) (xs : list T) :
  fold_scratch bop ((fun v => Some (Val v)) <$> x :: xs)
  = Some (Val (fold1 bop x xs)).
Proof.
  revert x. induction xs as [|y ys IH]; intros x; [reflexivity|].
  change (fold_scratch bop ((fun v => Some (Val v)) <$> x :: y :: ys))
    with (fold_pair bop (Some (Val x))
            (fold_scratch bop ((fun v => Some (Val v)) <$> y :: ys))).
  rewrite IH. simpl. unfold fold1. simpl. now rewrite foldl_assoc.
Qed.

Lemma combine_threads_values (x : T) (xs : list T) :
  combine_threads bop ((fun v => Some (Val v)) <$> x :: xs)
  = Some (Val (fold1 bop x xs)).
Proof. now rewrite combine_threads_fold, fold_scratch_values. Qed.

End strategy_assoc.

(** ** Facts about the order of the work-groups *)

Lemma insert_at_perm k x l : insert_at k x l ≡ₚ x :: l.
Proof.
  unfold insert_at. rewrite <- Permutation_middle.
  now rewrite take_drop.
Qed.

Lemma group_order_perm pos n : group_order pos n ≡ₚ seq 0 n.
Proof.
  unfold group_order. rewrite <- (app_nil_r (seq 0 n)) at 2.
  generalize (@nil nat) as acc.
  induction (seq 0 n) as [|g l IH]; intros acc; simpl.
  - reflexivity.
  - now rewrite IH, insert_at_perm, Permutation_middle.
Qed.

Lemma group_order_first pos n : 0 < n -> 0 ∈ group_order pos n.
Proof.
  intros Hn. rewrite group_order_perm. apply elem_of_seq. lia.
Qed.

(** ** Facts about the host loop *)

Section host_facts.
Context {A T : Type}.
Variable exec : ExecutionPolicy.
Variable unary_op : A -> T.
Variable binary_op : T -> T -> T.

Abbreviation do_while := (do_while exec unary_op binary_op).
Abbreviation loop_body := (loop_body exec unary_op binary_op).
Abbreviation run_loop := (run_loop exec unary_op binary_op).
Abbreviation transform_reduce := (transform_reduce exec unary_op binary_op).

Lemma loop_body_length local global (aI : list A) (st : host_state) :
  h_length (loop_body local global aI st) = h_length st / local.
Proof. reflexivity. Qed.

Lemma loop_body_passes local global (aI : list A) (st : host_state) :
  h_passes (loop_body local global aI st) = S (h_passes st).
Proof. reflexivity. Qed.

Lemma loop_body_trace local global (aI : list A) (st : host_state) :
  h_trace (loop_body local global aI st)
  = h_trace st
    ++ [EvSubmit (h_passes st) (h_length st) local (Nat.max global local)].
Proof. reflexivity. Qed.

(** The loop is left exactly when the shrunk length is at most 1. *)
Lemma do_while_S fuel local global (aI : list A) (st : host_state) :
  do_while (S fuel) local global aI st
  = if 1 <? h_length st / local
    then do_while fuel local global aI (loop_body local global aI st)
    else (loop_body local global aI st, true).
Proof. reflexivity. Qed.

Lemma do_while_trace fuel local global (aI : list A) (st : host_state) :
  h_trace (do_while fuel local global aI st).1
  = h_trace st
    ++ submissions fuel local (Nat.max global local) (h_passes st) (h_length st).
Proof.
  revert st. induction fuel as [|fuel IH]; intros st.
  - simpl. now rewrite app_nil_r.
  - rewrite do_while_S. cbn [submissions].
    destruct (1 <? h_length st / local) eqn:E.
    + rewrite IH, loop_body_trace, loop_body_passes, loop_body_length.
      now rewrite <- app_assoc.
    + reflexivity.
Qed.

Lemma do_while_passes fuel local global (aI : list A) (st : host_state) :
  h_passes (do_while fuel local global aI st).1
  = h_passes st
    + length (submissions fuel local (Nat.max global local)
                (h_passes st) (h_length st)).
Proof.
  revert st. induction fuel as [|fuel IH]; intros st.
  - simpl. lia.
  - rewrite do_while_S. cbn [submissions].
    destruct (1 <? h_length st / local) eqn:E.
    + rewrite IH, loop_body_passes, loop_body_length. simpl. lia.
    + simpl. lia.
Qed.

(** With groups of at least two work-items the loop is left after at most
    [h_length st] iterations (and at least one). *)
Lemma do_while_terminates fuel local global (aI : list A) (st : host_state) :
  2 <= local -> h_length st <= fuel -> 1 <= fuel ->
  (do_while fuel local global aI st).2 = true.
Proof.
  intros Hl. revert st. induction fuel as [|fuel IH]; intros st Hf H1; [lia|].
  rewrite do_while_S. destruct (1 <? h_length st / local) eqn:E; [|reflexivity].
  apply Nat.ltb_lt in E.
  assert (h_length st / local < h_length st).
  { apply Nat.div_lt; [|lia]. destruct (h_length st); [|lia].
    rewrite Nat.Div0.div_0_l in E. lia. }
  apply IH; [rewrite loop_body_length|]; lia.
Qed.

(** With groups of one work-item the length never shrinks. *)
Lemma do_while_diverges fuel global (aI : list A) (st : host_state) :
  2 <= h_length st -> (do_while fuel 1 global aI st).2 = false.
Proof.
  revert st. induction fuel as [|fuel IH]; intros st Hlen; [reflexivity|].
  rewrite do_while_S, Nat.div_1_r.
  destruct (1 <? h_length st) eqn:E.
  - apply IH. rewrite loop_body_length, Nat.div_1_r. exact Hlen.
  - apply Nat.ltb_ge in E. lia.
Qed.

Lemma transform_reduce_nonempty fuel (s : list A) init :
  s <> [] ->
  transform_reduce fuel s init
  = match run_loop fuel s with
    | (_, false) => None
    | (st, true) =>
        Some {| ret := cell_map (fun d => binary_op d init)
                         (default Indet (h_bufR st !! 0));
                actions := h_trace st ++ [EvWait; EvHostRead 0] |}
    end.
Proof. destruct s; [congruence|reflexivity]. Qed.

End host_facts.

(** ** Facts about one kernel pass *)

Section kernel_facts.
Context {A T : Type}.
Variable exec : ExecutionPolicy.
Variable unary_op : A -> T.
Variable binary_op : T -> T -> T.

Import ReductionStrategy.

Lemma write_back_others local length g (c : option (cell T)) aR k m :
  foldl (fun out lid =>
           workgroup_write_to
             {| local_ := local; length_ := length;
                id_ := item_of local g lid |} c out)
        aR (seq (S k) m)
  = aR.
Proof.
  revert k. induction m as [|m IH]; intros k; [reflexivity|].
  simpl. apply IH.
Qed.

Lemma work_group_insert passes local length (aI : list A) aR g :
  1 <= local ->
  work_group unary_op binary_op passes local length aI aR g
  = <[g := default Indet
             (combine_threads binary_op
                (staged unary_op passes local length aI aR g))]>
      aR.
Proof.
  intros Hl. unfold work_group. destruct local as [|n]; [lia|].
  cbn [seq foldl]. now rewrite write_back_others.
Qed.




(** At pass 0 the first group stages the transformed head of the input. *)
Lemma staged_first_group local length (aI : list A) aR :
  local <= length -> local <= List.length aI ->
  staged unary_op 0 local length aI aR 0
  = (fun x => Some (Val (unary_op x))) <$> take local aI.
Proof.
  intros Hl Hi. apply list_eq. intros i.
  unfold staged. rewrite !list_lookup_fmap.
  destruct (decide (i < local)) as [Hlt|Hge].
  - rewrite lookup_seq_lt, lookup_take_lt by lia.
    destruct (lookup_lt_is_Some_2 aI i) as [x Hx]; [lia|].
    rewrite Hx. simpl. unfold ingest. simpl.
    unfold workitem_get_from_op. simpl.
    destruct (Nat.ltb_spec i length); [|lia]. now rewrite Hx.
  - rewrite lookup_seq_ge, lookup_take_ge by lia. reflexivity.
Qed.

(** At pass 0 no group reads [aR], and only group 0 writes slot 0: whatever
    the order of the groups, slot 0 ends up with what group 0 combined. *)
Lemma pass0_slot0_kept local length (aI : list A) order aR :
  1 <= local ->
  aR !! 0 = Some (default Indet
                    (combine_threads binary_op (staged unary_op 0 local length aI [] 0))) ->
  foldl (fun buf g => work_group unary_op binary_op 0 local length aI buf g) aR order !! 0
  = Some (default Indet
            (combine_threads binary_op (staged unary_op 0 local length aI [] 0))).
Proof.
  intros Hl. revert aR.
  induction order as [|g order IH]; intros aR H0; [exact H0|].
  simpl. apply IH. rewrite work_group_insert by exact Hl.
  destruct (decide (g = 0)) as [->|Hg].
  - apply list_lookup_insert_eq. apply lookup_lt_is_Some. eauto.
  - now rewrite list_lookup_insert_ne.
Qed.

Lemma pass0_slot0 local length (aI : list A) order aR :
  1 <= local -> 0 ∈ order -> 0 < List.length aR ->
  foldl (fun buf g => work_group unary_op binary_op 0 local length aI buf g) aR order !! 0
  = Some (default Indet
            (combine_threads binary_op (staged unary_op 0 local length aI [] 0))).
Proof.
  intros Hl. revert aR.
  induction order as [|g order IH]; intros aR Hin Hlen.
  - now apply elem_of_nil in Hin.
  - simpl. destruct (decide (g = 0)) as [->|Hg].
    + apply pass0_slot0_kept; [exact Hl|].
      rewrite work_group_insert by exact Hl.
      now apply list_lookup_insert_eq.
    + apply IH.
      * apply elem_of_cons in Hin. destruct Hin; [congruence|assumption].
      * rewrite work_group_insert, length_insert by exact Hl. exact Hlen.
Qed.

Lemma parallel_for_pass0_slot0 global_range local length (aI : list A) aR :
  1 <= local -> local <= global_range -> 0 < List.length aR ->
  parallel_for exec unary_op binary_op global_range 0 local length aI aR !! 0
  = Some (default Indet
            (combine_threads binary_op (staged unary_op 0 local length aI [] 0))).
Proof.
  intros Hl Hg Hlen. unfold parallel_for.
  apply pass0_slot0; [exact Hl| |exact Hlen].
  apply group_order_first. apply Nat.div_str_pos. lia.
Qed.

End kernel_facts.

(** ** Facts about the submissions of a run *)

Lemma submissions_passes fuel local grange p len :
  submitted_passes (submissions fuel local grange p len)
  = seq p (length (submissions fuel local grange p len)).
Proof.
  revert p len. induction fuel as [|fuel IH]; intros p len; [reflexivity|].
  cbn [submissions]. destruct (1 <? len / local).
  - cbn. f_equal. apply IH.
  - reflexivity.
Qed.

Lemma submissions_locals fuel local grange p len :
  submitted_locals (submissions fuel local grange p len)
  = replicate (length (submissions fuel local grange p len)) local.
Proof.
  revert p len. induction fuel as [|fuel IH]; intros p len; [reflexivity|].
  cbn [submissions]. destruct (1 <? len / local).
  - cbn. f_equal. apply IH.
  - reflexivity.
Qed.

Lemma submissions_all_submit fuel local grange p len :
  forallb is_submit (submissions fuel local grange p len) = true.
Proof.
  revert p len. induction fuel as [|fuel IH]; intros p len; [reflexivity|].
  cbn [submissions]. destruct (1 <? len / local).
  - cbn. apply IH.
  - reflexivity.
Qed.

Section run_facts.
Context {A T : Type}.
Variable exec : ExecutionPolicy.
Variable unary_op : A -> T.
Variable binary_op : T -> T -> T.

(** The actions of the loop after any number of iterations. *)
Lemma run_loop_trace fuel (s : list A) :
  let local := Nat.min (max_work_group_size exec) (length s) in
  let grange := Nat.max (calculateGlobalSize (length s) local) local in
  h_trace (run_loop exec unary_op binary_op fuel s).1
  = [EvQueue; EvBufR (length s); EvDeviceInfo; EvBufI (length s)]
    ++ submissions fuel local grange 0 (length s).
Proof. intros local grange. unfold run_loop. now rewrite do_while_trace. Qed.

Lemma run_loop_passes fuel (s : list A) :
  let local := Nat.min (max_work_group_size exec) (length s) in
  let grange := Nat.max (calculateGlobalSize (length s) local) local in
  h_passes (run_loop exec unary_op binary_op fuel s).1
  = length (submissions fuel local grange 0 (length s)).
Proof. intros local grange. unfold run_loop. now rewrite do_while_passes. Qed.

(** A call on a non-empty range that returns went through the loop. *)
Lemma transform_reduce_returned fuel (s : list A) init r :
  s <> [] ->
  transform_reduce exec unary_op binary_op fuel s init = Some r ->
  exists st,
    run_loop exec unary_op binary_op fuel s = (st, true)
    /\ ret r = cell_map (fun d => binary_op d init)
                 (default Indet (h_bufR st !! 0))
    /\ actions r = h_trace st ++ [EvWait; EvHostRead 0].
Proof.
  intros Hs. rewrite transform_reduce_nonempty by exact Hs.
  destruct (run_loop exec unary_op binary_op fuel s) as [st [|]]; [|discriminate].
  intros [= <-]. now exists st.
Qed.

(** Groups of at least two work-items: the call returns. *)
Lemma transform_reduce_returns (s : list A) init :
  s <> [] -> 2 <= Nat.min (max_work_group_size exec) (length s) ->
  exists r, transform_reduce exec unary_op binary_op (length s) s init = Some r.
Proof.
  intros Hs Hl. rewrite transform_reduce_nonempty by exact Hs.
  pose proof (do_while_terminates exec unary_op binary_op (length s)
                (Nat.min (max_work_group_size exec) (length s))
                (calculateGlobalSize (length s)
                   (Nat.min (max_work_group_size exec) (length s)))
                s (loop_entry s) Hl) as Ht.
  unfold run_loop.
  destruct (do_while _ _ _ _ _ _ _ _) as [st b]. simpl in Ht.
  rewrite Ht; [eauto| reflexivity | lia].
Qed.

(** Groups of one work-item and at least two elements: the call never
    returns. *)
Lemma unit_group_size_never_returns fuel (s : list A) init :
  max_work_group_size exec = 1 -> 2 <= length s ->
  transform_reduce exec unary_op binary_op fuel s init = None.
Proof.
  intros Hm Hs. rewrite transform_reduce_nonempty by (destruct s; [simpl in Hs; lia|easy]).
  unfold run_loop. rewrite Hm.
  replace (Nat.min 1 (length s)) with 1 by lia.
  pose proof (do_while_diverges exec unary_op binary_op fuel
                (calculateGlobalSize (length s) 1) s (loop_entry s) Hs) as Hd.
  destruct (do_while _ _ _ _ _ _ _ _) as [st b]. simpl in Hd. now rewrite Hd.
Qed.

(** A run whose first pass already brings the length down to at most 1:
    the caller gets what the first work-group combined, and nothing of the
    other groups. *)
Lemma transform_reduce_one_pass fuel (s : list A) init :
  let local := Nat.min (max_work_group_size exec) (length s) in
  let grange := Nat.max (calculateGlobalSize (length s) local) local in
  s <> [] -> 1 <= max_work_group_size exec -> length s / local <= 1 ->
  transform_reduce exec unary_op binary_op (S fuel) s init
  = Some {| ret := cell_map (fun d => binary_op d init)
                     (default Indet
                        (ReductionStrategy.combine_threads binary_op
                           ((fun x => Some (Val (unary_op x)))
                              <$> take local s)));
            actions := [EvQueue; EvBufR (length s); EvDeviceInfo;
                        EvBufI (length s);
                        EvSubmit 0 (length s) local grange;
                        EvWait; EvHostRead 0] |}.
Proof.
  intros local grange Hs Hm Hdiv.
  assert (Hn : 1 <= length s) by (destruct s; [congruence|simpl; lia]).
  rewrite transform_reduce_nonempty by exact Hs.
  unfold run_loop. fold local. rewrite do_while_S.
  change (h_length (loop_entry s)) with (length s).
  destruct (Nat.ltb_spec 1 (length s / local)) as [Hlt|_]; [lia|].
  f_equal. f_equal.
  change (h_bufR (loop_body exec unary_op binary_op local
                    (calculateGlobalSize (length s) local) s (loop_entry s)))
    with (parallel_for exec unary_op binary_op grange 0 local (length s) s
            (replicate (length s) Indet)).
  rewrite parallel_for_pass0_slot0.
  - simpl. now rewrite (staged_first_group unary_op local (length s) s []) by lia.
  - lia.
  - lia.
  - rewrite length_replicate. lia.
Qed.

(** The same with an associative operator: the in-order fold of the first
    [local] transformed elements, combined with [init] on the right. *)
Lemma transform_reduce_one_pass_fold fuel x (xs : list A) init :
  let local := Nat.min (max_work_group_size exec) (length (x :: xs)) in
  (forall a b c, binary_op a (binary_op b c) = binary_op (binary_op a b) c) ->
  1 <= max_work_group_size exec -> length (x :: xs) / local <= 1 ->
  ret <$> transform_reduce exec unary_op binary_op (S fuel) (x :: xs) init
  = Some (Val (binary_op
                 (fold1 binary_op (unary_op x)
                    (unary_op <$> take (local - 1) xs))
                 init)).
Proof.
  intros local Hassoc Hm Hdiv.
  rewrite transform_reduce_one_pass by (easy || lia). fold local.
  assert (Hl : local = S (local - 1)) by (subst local; simpl length; lia).
  rewrite Hl at 1. simpl take.
  replace ((fun v => Some (Val (unary_op v))) <$> x :: take (local - 1) xs)
    with ((fun v => Some (Val v)) <$> unary_op x :: (unary_op <$> take (local - 1) xs)).
  - now rewrite combine_threads_values by exact Hassoc.
  - simpl. f_equal. now rewrite <- list_fmap_compose.
Qed.

(** A range that fits in one work-group is reduced to the fold of all its
    transformed elements, combined with [init] on the right. *)
Lemma transform_reduce_one_group fuel x (xs : list A) init :
  (forall a b c, binary_op a (binary_op b c) = binary_op (binary_op a b) c) ->
  length (x :: xs) <= max_work_group_size exec ->
  ret <$> transform_reduce exec unary_op binary_op (S fuel) (x :: xs) init
  = Some (Val (binary_op (fold1 binary_op (unary_op x) (unary_op <$> xs)) init)).
Proof.
  intros Hassoc Hm.
  assert (Hl : Nat.min (max_work_group_size exec) (length (x :: xs))
               = length (x :: xs)) by lia.
  rewrite transform_reduce_one_pass_fold; try assumption.
  - rewrite Hl. simpl length. rewrite Nat.sub_succ, Nat.sub_0_r.
    now rewrite take_ge.
  - simpl in Hm. lia.
  - rewrite Hl. rewrite Nat.div_same; simpl; lia.
Qed.

End run_facts.

(** ** The properties of [transform_reduce] *)

Section properties.
Context {A T : Type}.
Variable exec : ExecutionPolicy.
Variable unary_op : A -> T.
Variable binary_op : T -> T -> T.

(** C2, as the code has it: on an empty range the call returns exactly
    [init], whatever the operators and however little fuel; it has bound the
    queue and constructed the partial-result buffer [bufR] (of size 0, line
    57, before the emptiness test of line 58) and has done nothing else: no
    device query, no input buffer, no submission, no wait. *)
Theorem transform_reduce_empty fuel (init : T) :
  transform_reduce exec unary_op binary_op fuel [] init
  = Some {| ret := Val init; actions := [EvQueue; EvBufR 0] |}.
Proof. reflexivity. Qed.

(** C3, as the code has it: a call on a non-empty range that returns has
    queried the device and created the buffers, then made all its
    submissions one after the other with nothing between them, then waited
    once ([wait_and_throw], line 102), then read [hR[0]]. *)
Theorem transform_reduce_single_wait fuel (s : list A) (init : T) r :
  s <> [] ->
  transform_reduce exec unary_op binary_op fuel s init = Some r ->
  exists subs,
    actions r
    = [EvQueue; EvBufR (length s); EvDeviceInfo; EvBufI (length s)]
      ++ subs ++ [EvWait; EvHostRead 0]
    /\ forallb is_submit subs = true.
Proof.
  intros Hs Hr.
  destruct (transform_reduce_returned _ _ _ _ _ _ _ Hs Hr) as (st & Hst & _ & Ha).
  pose proof (run_loop_trace exec unary_op binary_op fuel s) as Ht.
  rewrite Hst in Ht. simpl in Ht.
  eexists. split.
  - rewrite Ha, Ht. reflexivity.
  - apply submissions_all_submit.
Qed.

(** C7: a call on a non-empty range that returns hands back
    [binary_op d init], where [d] is the cell at index 0 of the
    partial-result buffer when the loop is left: the device value on the
    left, [init] on the right. *)
Theorem transform_reduce_finalizes_left fuel (s : list A) (init : T) r :
  s <> [] ->
  transform_reduce exec unary_op binary_op fuel s init = Some r ->
  exists st,
    run_loop exec unary_op binary_op fuel s = (st, true)
    /\ ret r = cell_map (fun d => binary_op d init)
                 (default Indet (h_bufR st !! 0))
    /\ (forall d, h_bufR st !! 0 = Some (Val d) ->
                  ret r = Val (binary_op d init)).
Proof.
  intros Hs Hr.
  destruct (transform_reduce_returned _ _ _ _ _ _ _ Hs Hr) as (st & Hst & Hret & _).
  exists st. repeat split; try assumption.
  intros d Hd. now rewrite Hret, Hd.
Qed.


(** C10: a call on a non-empty range that returns has submitted pass 0
    before waiting and reading the result; for a single element that is the
    only submission. *)
Theorem nonempty_submits_a_pass fuel (s : list A) (init : T) r :
  s <> [] ->
  transform_reduce exec unary_op binary_op fuel s init = Some r ->
  let local := Nat.min (max_work_group_size exec) (length s) in
  let grange := Nat.max (calculateGlobalSize (length s) local) local in
  exists rest,
    actions r
    = [EvQueue; EvBufR (length s); EvDeviceInfo; EvBufI (length s);
       EvSubmit 0 (length s) local grange]
      ++ rest ++ [EvWait; EvHostRead 0]
    /\ (length s = 1 -> rest = []).
Proof.
  intros Hs Hr local grange.
  destruct (transform_reduce_returned _ _ _ _ _ _ _ Hs Hr) as (st & Hst & _ & Ha).
  pose proof (run_loop_trace exec unary_op binary_op fuel s) as Ht.
  rewrite Hst in Ht. simpl in Ht. fold local in Ht. fold grange in Ht.
  destruct fuel as [|fuel]; [discriminate Hst|].
  cbn [submissions] in Ht.
  eexists. split.
  - rewrite Ha, Ht. simpl. reflexivity.
  - intros H1. destruct (Nat.ltb_spec 1 (length s / local)) as [Hlt|_]; [|reflexivity].
    exfalso. rewrite H1 in Hlt.
    destruct local as [|l]; [simpl in Hlt; lia|].
    assert (1 / S l <= 1) by (apply Nat.Div0.div_le_upper_bound; lia). lia.
Qed.

End properties.

(** ** The code at concrete inputs *)

(** C1 at the input [1; 2; 3] with identity, [+], [init = 0] and a device
    whose maximal group size is 2, whatever the order of the groups: the
    call returns 3, the sum of the first two elements, where the sequential
    fold combined with [init] is 6.  The third element is combined by the
    second group into slot 1, and [length = 3 / 2 = 1] ends the loop before
    any pass reads that slot. *)
Theorem transform_reduce_drops_remainder pos fuel :
  ret <$> transform_reduce {| max_work_group_size := 2; group_position := pos |}
            id Nat.add (S fuel) [1; 2; 3] 0
  = Some (Val 3)
  /\ fold1 Nat.add 1 [2; 3] + 0 = 6.
Proof.
  split; [|reflexivity].
  rewrite transform_reduce_one_pass_fold.
  - reflexivity.
  - intros a b c. apply Nat.add_assoc.
  - simpl. lia.
  - simpl. lia.
Qed.

(** C2 as stated fails: the call on an empty range creates a device buffer
    before it returns. *)
Lemma empty_range_creates_bufR :
  ~ (forall r,
       transform_reduce (ascending 256) S Nat.mul 0 [] 42 = Some r ->
       ret r = Val 42 /\ no_device_interaction (actions r) = true).
Proof.
  intros H. destruct (H _ eq_refl) as [_ Hn]. discriminate Hn.
Qed.

(** C3 as stated fails: on [1; 2; 3; 4] with groups of 2 the host submits
    pass 0 and pass 1 with no wait between them. *)
Lemma passes_not_awaited :
  ~ (forall r,
       transform_reduce (ascending 2) id Nat.add 2 [1; 2; 3; 4] 0 = Some r ->
       waits_between false (actions r) = true).
Proof.
  intros H. specialize (H _ eq_refl). discriminate H.
Qed.

Lemma transform_reduce_single_wait_witness :
  ([1; 2; 3; 4] <> []
   /\ transform_reduce (ascending 2) id Nat.add 2 [1; 2; 3; 4] 0
      = Some {| ret := Val 10;
                actions := [EvQueue; EvBufR 4; EvDeviceInfo; EvBufI 4;
                            EvSubmit 0 4 2 4; EvSubmit 1 2 2 4;
                            EvWait; EvHostRead 0] |})
  /\ exists subs,
       [EvQueue; EvBufR 4; EvDeviceInfo; EvBufI 4;
        EvSubmit 0 4 2 4; EvSubmit 1 2 2 4; EvWait; EvHostRead 0]
       = [EvQueue; EvBufR 4; EvDeviceInfo; EvBufI 4]
         ++ subs ++ [EvWait; EvHostRead 0]
       /\ forallb is_submit subs = true.
Proof.
  split; [split; [discriminate|reflexivity]|].
  apply (transform_reduce_single_wait (ascending 2) id Nat.add 2 [1; 2; 3; 4] 0
           {| ret := Val 10;
              actions := [EvQueue; EvBufR 4; EvDeviceInfo; EvBufI 4;
                          EvSubmit 0 4 2 4; EvSubmit 1 2 2 4;
                          EvWait; EvHostRead 0] |});
    [discriminate|reflexivity].
Defined.

(** C4 at the input [1; 2; 3; 4] with identity, [+] and [init = 0],
    whatever the order of the groups: a device whose maximal group size is 4
    gives 10, one whose maximal group size is 3 gives 6 (the fourth element
    is combined by the second group and never read again). *)
Theorem transform_reduce_local_size_dependent pos pos' fuel :
  ret <$> transform_reduce {| max_work_group_size := 4; group_position := pos |}
            id Nat.add (S fuel) [1; 2; 3; 4] 0
  = Some (Val 10)
  /\ ret <$> transform_reduce
               {| max_work_group_size := 3; group_position := pos' |}
               id Nat.add (S fuel) [1; 2; 3; 4] 0
     = Some (Val 6).
Proof.
  split; rewrite transform_reduce_one_pass_fold;
    first [reflexivity | apply Nat.add_assoc | simpl; lia].
Qed.

(** C5 at the input [1; 2] and a device whose maximal group size is 1: the
    length stays 2 after every pass ([2 / 1 = 2]), and the call has not
    returned after any number of iterations. *)
Theorem transform_reduce_unit_group_diverges pos fuel :
  transform_reduce {| max_work_group_size := 1; group_position := pos |}
    id Nat.add fuel [1; 2] 0
  = None.
Proof. apply unit_group_size_never_returns; simpl; lia. Qed.

Lemma transform_reduce_finalizes_left_witness :
  ([5] <> []
   /\ transform_reduce (ascending 4) S Nat.sub 1 [5] 2
      = Some {| ret := Val 4;
                actions := [EvQueue; EvBufR 1; EvDeviceInfo; EvBufI 1;
                            EvSubmit 0 1 1 1; EvWait; EvHostRead 0] |})
  /\ exists st,
       run_loop (ascending 4) S Nat.sub 1 [5] = (st, true)
       /\ Val 4 = cell_map (fun d => d - 2) (default Indet (h_bufR st !! 0))
       /\ (forall d, h_bufR st !! 0 = Some (Val d) -> Val 4 = Val (d - 2)).
Proof.
  split; [split; [discriminate|reflexivity]|].
  apply (transform_reduce_finalizes_left (ascending 4) S Nat.sub 1 [5] 2
           {| ret := Val 4;
              actions := [EvQueue; EvBufR 1; EvDeviceInfo; EvBufI 1;
                          EvSubmit 0 1 1 1; EvWait; EvHostRead 0] |});
    [discriminate|reflexivity].
Defined.

Lemma nonempty_submits_a_pass_witness :
  ([7] <> []
   /\ transform_reduce (ascending 256) S Nat.mul 1 [7] 2
      = Some {| ret := Val 16;
                actions := [EvQueue; EvBufR 1; EvDeviceInfo; EvBufI 1;
                            EvSubmit 0 1 1 1; EvWait; EvHostRead 0] |})
  /\ exists rest,
       [EvQueue; EvBufR 1; EvDeviceInfo; EvBufI 1;
        EvSubmit 0 1 1 1; EvWait; EvHostRead 0]
       = [EvQueue; EvBufR 1; EvDeviceInfo; EvBufI 1; EvSubmit 0 1 1 1]
         ++ rest ++ [EvWait; EvHostRead 0]
       /\ (1 = 1 -> rest = []).
Proof.
  split; [split; [discriminate|reflexivity]|].
  apply (nonempty_submits_a_pass (ascending 256) S Nat.mul 1 [7] 2
           {| ret := Val 16;
              actions := [EvQueue; EvBufR 1; EvDeviceInfo; EvBufI 1;
                          EvSubmit 0 1 1 1; EvWait; EvHostRead 0] |});
    [discriminate|reflexivity].
Defined.

(** ** The scenarios of the specification, and the order of the groups *)

(** Ranges that fit in one work-group: the expected values, whatever the
    order in which the device runs the groups. *)
Example squares_of_1_to_8 pos :
  ret <$> transform_reduce
            {| max_work_group_size := 256; group_position := pos |}
            (fun x => x * x) Nat.add 1 [1; 2; 3; 4; 5; 6; 7; 8] 0
  = Some (Val 204).
Proof.
  rewrite transform_reduce_one_group;
    first [reflexivity | apply Nat.add_assoc | simpl; lia].
Qed.

Example sum_of_1_to_8_from_100 pos :
  ret <$> transform_reduce
            {| max_work_group_size := 256; group_position := pos |}
            id Nat.add 1 [1; 2; 3; 4; 5; 6; 7; 8] 100
  = Some (Val 136).
Proof.
  rewrite transform_reduce_one_group;
    first [reflexivity | apply Nat.add_assoc | simpl; lia].
Qed.

Example single_element pos :
  ret <$> transform_reduce
            {| max_work_group_size := 256; group_position := pos |}
            S Nat.mul 1 [7] 2
  = Some (Val 16).
Proof.
  rewrite transform_reduce_one_group;
    first [reflexivity | apply Nat.mul_assoc | simpl; lia].
Qed.

(** Several passes, lengths that divide evenly, groups run in ascending
    order: the expected value. *)
Example three_passes_ascending :
  ret <$> transform_reduce (ascending 2) (fun x => x * x) Nat.add 3
            [1; 2; 3; 4; 5; 6; 7; 8] 0
  = Some (Val 204).
Proof. reflexivity. Qed.

(** From pass 1 on, the kernel still runs over the initial global size, so
    the groups past the logical length write their slot while group 0 may
    not have read it yet: on [1; 2; 3; 4] with groups of 2, group 1 of pass 1
    has no work-item with an element and overwrites slot 1; run before
    group 0, it makes the result indeterminate. *)
Example group_order_matters :
  ret <$> transform_reduce (ascending 2) id Nat.add 2 [1; 2; 3; 4] 0
  = Some (Val 10)
  /\ ret <$> transform_reduce (descending 2) id Nat.add 2 [1; 2; 3; 4] 0
     = Some Indet.
Proof. split; reflexivity. Qed.

(** ** How many passes, and over what *)

Lemma submissions_lengths fuel local grange p len :
  submitted_lengths (submissions fuel local grange p len)
  = (fun i => len / local ^ i)
      <$> seq 0 (length (submissions fuel local grange p len)).
Proof.
  revert p len. induction fuel as [|fuel IH]; intros p len; [reflexivity|].
  cbn [submissions]. destruct (1 <? len / local).
  - cbn [submitted_lengths omap list_omap length seq fmap list_fmap].
    f_equal; [now rewrite Nat.pow_0_r, Nat.div_1_r|].
    change (omap _ ?l) with (submitted_lengths l). rewrite IH.
    rewrite <- (fmap_S_seq 0), <- list_fmap_compose.
    apply list_fmap_ext. intros _ i _. simpl.
    now rewrite Nat.Div0.div_div.
  - cbn [submitted_lengths omap list_omap length seq fmap list_fmap].
    now rewrite Nat.pow_0_r, Nat.div_1_r.
Qed.

Lemma submissions_ranges fuel local grange p len :
  submitted_ranges (submissions fuel local grange p len)
  = replicate (length (submissions fuel local grange p len)) grange.
Proof.
  revert p len. induction fuel as [|fuel IH]; intros p len; [reflexivity|].
  cbn [submissions]. destruct (1 <? len / local).
  - cbn. f_equal. apply IH.
  - reflexivity.
Qed.

Section pass_count.
Context {A T : Type}.
Variable exec : ExecutionPolicy.
Variable unary_op : A -> T.
Variable binary_op : T -> T -> T.

(** When the loop is left after [k] more passes, [k] is the first positive
    exponent at which [len / local ^ k] is at most 1. *)
Lemma do_while_count fuel local global (aI : list A) (st st' : host_state) :
  do_while exec unary_op binary_op fuel local global aI st = (st', true) ->
  exists k,
    h_passes st' = h_passes st + k
    /\ 1 <= k
    /\ h_length st / local ^ k <= 1
    /\ forall j, 1 <= j < k -> 1 < h_length st / local ^ j.
Proof.
  revert st. induction fuel as [|fuel IH]; intros st; [discriminate|].
  rewrite do_while_S. destruct (Nat.ltb_spec 1 (h_length st / local)) as [Hlt|Hge].
  - intros Hd. destruct (IH _ Hd) as (k & Hp & Hk & Hle & Hall).
    rewrite loop_body_passes in Hp. rewrite loop_body_length in Hle, Hall.
    exists (S k). repeat split.
    + lia.
    + lia.
    + now rewrite Nat.pow_succ_r', <- Nat.Div0.div_div.
    + intros j Hj. destruct (decide (j = 1)) as [->|Hj1].
      * now rewrite Nat.pow_1_r.
      * replace j with (S (j - 1)) by lia.
        rewrite Nat.pow_succ_r', <- Nat.Div0.div_div. apply Hall. lia.
  - intros [= <-]. exists 1. rewrite loop_body_passes, Nat.pow_1_r.
    repeat split; try lia.
Qed.

End pass_count.

(** ** A pass whose groups run in ascending order *)

Lemma group_order_from j m :
  foldl (fun acc g => insert_at g g acc) (seq 0 j) (seq j m) = seq 0 (j + m).
Proof.
  revert j. induction m as [|m IH]; intros j.
  - now rewrite Nat.add_0_r.
  - change (seq j (S m)) with (j :: seq (S j) m). cbn [foldl].
    assert (Hi : insert_at j j (seq 0 j) = seq 0 (S j)).
    { unfold insert_at.
      rewrite take_ge, drop_ge by (rewrite length_seq; lia).
      now rewrite seq_S. }
    rewrite Hi, IH. f_equal. lia.
Qed.

Lemma group_order_ascending n : group_order (fun g => g) n = seq 0 n.
Proof. apply (group_order_from 0 n). Qed.

Section ascending_pass.
Context {A T : Type}.
Variable unary_op : A -> T.
Variable binary_op : T -> T -> T.

Import ReductionStrategy.

Lemma ingest_source passes local length (aI : list A) (aR : list (cell T)) id :
  ingest unary_op passes local length aI aR id
  = if get_global id <? length
    then Some (default Indet
                 (pass_source unary_op passes aI aR !! get_global id))
    else None.
Proof.
  unfold ingest, pass_source, workitem_get_from_op, workitem_get_from. simpl.
  destruct (passes =? 0); [|reflexivity].
  destruct (get_global id <? length); [|reflexivity].
  rewrite list_lookup_fmap. now destruct (aI !! get_global id).
Qed.

(** A group all of whose work-items have an element stages the block of
    cells it covers. *)
Lemma staged_block passes local length (aI : list A) (aR : list (cell T)) g :
  (g + 1) * local <= length ->
  length <= List.length (pass_source unary_op passes aI aR) ->
  staged unary_op passes local length aI aR g
  = Some <$> take local (drop (g * local) (pass_source unary_op passes aI aR)).
Proof.
  intros Hg Hlen. apply list_eq. intros i.
  unfold staged. rewrite !list_lookup_fmap.
  destruct (decide (i < local)) as [Hi|Hi].
  - rewrite lookup_seq_lt, lookup_take_lt, lookup_drop by lia. simpl.
    rewrite ingest_source. simpl.
    destruct (Nat.ltb_spec (g * local + i) length) as [_|Hge]; [|lia].
    destruct (lookup_lt_is_Some_2 (pass_source unary_op passes aI aR)
                (g * local + i)) as [c Hc]; [lia|].
    now rewrite Hc.
  - rewrite lookup_seq_ge, lookup_take_ge by lia. reflexivity.
Qed.

(** What a group stages depends on the buffer only from the first index the
    group covers (and not at all at pass 0). *)
Lemma staged_agree passes local length (aI : list A) (aR buf : list (cell T)) g :
  (forall i, g * local <= i -> buf !! i = aR !! i) ->
  staged unary_op passes local length aI buf g
  = staged unary_op passes local length aI aR g.
Proof.
  intros Hag. unfold staged. apply list_fmap_ext. intros _ lid _.
  rewrite !ingest_source. simpl.
  destruct (g * local + lid <? length); [|reflexivity].
  unfold pass_source. destruct (passes =? 0); [reflexivity|].
  now rewrite Hag by lia.
Qed.

(** Groups [0 .. m-1] run in ascending order: their slots hold what each
    combined from the buffer as it was before the pass, the other slots are
    untouched. *)
Lemma ascending_groups passes local length (aI : list A) (aR : list (cell T)) m :
  1 <= local ->
  let buf := foldl (fun buf g =>
                      work_group unary_op binary_op passes local length aI buf g)
                   aR (seq 0 m) in
  List.length buf = List.length aR
  /\ (forall g, g < m -> g < List.length aR ->
        buf !! g
        = Some (default Indet
                  (combine_threads binary_op
                     (staged unary_op passes local length aI aR g))))
  /\ (forall i, m <= i -> buf !! i = aR !! i).
Proof.
  intros Hl. induction m as [|m (IHlen & IHlo & IHhi)].
  - simpl. split; [reflexivity|]. split; [intros; lia | auto].
  - rewrite seq_S, foldl_app. cbn [foldl Nat.add].
    set (prev := foldl _ aR (seq 0 m)) in *.
    rewrite work_group_insert by exact Hl.
    assert (Hst : staged unary_op passes local length aI prev m
                  = staged unary_op passes local length aI aR m).
    { apply staged_agree. intros i Hi. apply IHhi. nia. }
    rewrite Hst. split; [|split].
    + now rewrite length_insert.
    + intros g Hg Hglen. destruct (decide (g = m)) as [->|Hne].
      * apply list_lookup_insert_eq. lia.
      * rewrite list_lookup_insert_ne by lia. apply IHlo; lia.
    + intros i Hi. rewrite list_lookup_insert_ne by lia. apply IHhi. lia.
Qed.

End ascending_pass.

(** ** Passes that lose nothing *)

Section exact_passes.
Context {A T : Type}.
Variable unary_op : A -> T.
Variable binary_op : T -> T -> T.
Hypothesis binary_op_assoc :
  forall a b c, binary_op a (binary_op b c) = binary_op (binary_op a b) c.

Import ReductionStrategy.

Lemma fold_scratch_app (l1 l2 : list (option (cell T))) :
  fold_scratch binary_op (l1 ++ l2)
  = fold_pair binary_op (fold_scratch binary_op l1)
      (fold_scratch binary_op l2).
Proof.
  induction l1 as [|x l1 IH]; [reflexivity|].
  change (fold_pair binary_op x (fold_scratch binary_op (l1 ++ l2))
          = fold_pair binary_op
              (fold_pair binary_op x (fold_scratch binary_op l1))
              (fold_scratch binary_op l2)).
  now rewrite IH, fold_pair_assoc.
Qed.

(** Folding the folds of consecutive blocks is folding the whole. *)
Lemma fold_scratch_blocks local (src : list (cell T)) m j :
  fold_scratch binary_op
    ((fun g => fold_scratch binary_op
                 (Some <$> take local (drop (g * local) src)))
       <$> seq j m)
  = fold_scratch binary_op (Some <$> take (m * local) (drop (j * local) src)).
Proof.
  revert j. induction m as [|m IH]; intros j; [reflexivity|].
  cbn [seq fmap list_fmap].
  change (fold_scratch binary_op (?x :: ?l))
    with (fold_pair binary_op x (fold_scratch binary_op l)).
  rewrite IH. change (S m * local) with (local + m * local).
  rewrite <- take_take_drop, fmap_app, fold_scratch_app, drop_drop.
  now replace (S j * local) with (j * local + local) by (simpl; lia).
Qed.

Lemma fold_scratch_Some (c : cell T) (l : list (cell T)) :
  Some (default Indet (fold_scratch binary_op (Some <$> c :: l)))
  = fold_scratch binary_op (Some <$> c :: l).
Proof.
  change (fold_scratch binary_op (Some <$> c :: l))
    with (fold_pair binary_op (Some c) (fold_scratch binary_op (Some <$> l))).
  now destruct (fold_scratch binary_op (Some <$> l)).
Qed.

(** A full block of cells combines to a cell. *)
Lemma block_Some local (src : list (cell T)) g :
  1 <= local -> (g + 1) * local <= List.length src ->
  Some (default Indet
          (fold_scratch binary_op (Some <$> take local (drop (g * local) src))))
  = fold_scratch binary_op (Some <$> take local (drop (g * local) src)).
Proof.
  intros Hl Hg.
  destruct (take local (drop (g * local) src)) as [|c l] eqn:E.
  - apply (f_equal List.length) in E.
    rewrite length_take, length_drop in E. simpl in E. lia.
  - apply fold_scratch_Some.
Qed.

(** A pass over a length that is [m] whole groups, its groups run in
    ascending order: the first [m] slots afterwards fold to what the first
    [m * local] source cells fold to. *)
Lemma exact_pass passes local (aI : list A) (aR : list (cell T)) m ngroups :
  1 <= local -> m <= ngroups -> m <= List.length aR ->
  m * local <= List.length (pass_source unary_op passes aI aR) ->
  fold_scratch binary_op
    (Some <$> take m
       (foldl (fun buf g =>
                 work_group unary_op binary_op passes local (m * local)
                   aI buf g)
              aR (seq 0 ngroups)))
  = fold_scratch binary_op
      (Some <$> take (m * local) (pass_source unary_op passes aI aR)).
Proof.
  intros Hl Hm Hlen Hsrc.
  destruct (ascending_groups unary_op binary_op passes local (m * local)
              aI aR ngroups Hl) as (Hbl & Hlo & _).
  set (buf := foldl _ aR (seq 0 ngroups)) in *.
  rewrite <- (drop_0 (pass_source unary_op passes aI aR)) at 1.
  rewrite <- (fold_scratch_blocks local _ m 0). f_equal.
  apply list_eq. intros g. rewrite !list_lookup_fmap.
  destruct (decide (g < m)) as [Hg|Hg].
  - rewrite lookup_take_lt, lookup_seq_lt by lia.
    rewrite Hlo by lia. simpl. f_equal.
    rewrite combine_threads_fold by exact binary_op_assoc.
    rewrite staged_block by nia.
    apply block_Some; [exact Hl | nia].
  - rewrite lookup_take_ge, lookup_seq_ge by lia. reflexivity.
Qed.

Lemma parallel_for_ascending maxwg grange passes local length
    (aI : list A) (aR : list (cell T)) :
  parallel_for (ascending maxwg) unary_op binary_op grange passes local
    length aI aR
  = foldl (fun buf g =>
             work_group unary_op binary_op passes local length aI buf g)
          aR (seq 0 (grange / local)).
Proof. unfold parallel_for. simpl. now rewrite group_order_ascending. Qed.

Lemma parallel_for_ascending_length maxwg grange passes local length
    (aI : list A) (aR : list (cell T)) :
  1 <= local ->
  List.length
    (parallel_for (ascending maxwg) unary_op binary_op grange passes local
       length aI aR)
  = List.length aR.
Proof.
  intros Hl. rewrite parallel_for_ascending.
  apply (ascending_groups unary_op binary_op passes local length aI aR
           (grange / local) Hl).
Qed.

(** From a length that is a power of the group size, the loop folds the
    whole source into slot 0. *)
Lemma do_while_power maxwg local global (aI : list A) j :
  forall fuel (st : host_state),
  2 <= local ->
  h_length st = local ^ S j ->
  local ^ S j
  <= List.length (pass_source unary_op (h_passes st) aI (h_bufR st)) ->
  local ^ j <= List.length (h_bufR st) ->
  local ^ j <= Nat.max global local / local ->
  S j <= fuel ->
  exists st',
    do_while (ascending maxwg) unary_op binary_op fuel local global aI st
    = (st', true)
    /\ Some (default Indet (h_bufR st' !! 0))
       = fold_scratch binary_op
           (Some <$> take (local ^ S j)
              (pass_source unary_op (h_passes st) aI (h_bufR st))).
Proof.
  induction j as [|j IH]; intros fuel st Hl Hlen Hsrc Hbuf Hng Hfuel;
    (destruct fuel as [|fuel]; [lia|]); rewrite do_while_S.
  - rewrite Hlen, Nat.pow_1_r, Nat.div_same by lia. simpl (1 <? 1).
    eexists. split; [reflexivity|].
    change (h_bufR (loop_body _ _ _ _ _ _ st))
      with (parallel_for (ascending maxwg) unary_op binary_op
              (Nat.max global local) (h_passes st) local (h_length st)
              aI (h_bufR st)).
    rewrite Hlen, Nat.pow_1_r in *. rewrite parallel_for_ascending.
    pose proof (exact_pass (h_passes st) local aI (h_bufR st) 1
                  (Nat.max global local / local) ltac:(lia)) as He.
    rewrite Nat.mul_1_l in He. rewrite <- He by (simpl in *; lia).
    destruct (ascending_groups unary_op binary_op (h_passes st) local local
                aI (h_bufR st) (Nat.max global local / local) ltac:(lia))
      as (Hbl & _ & _).
    set (buf := foldl _ _ _) in *.
    destruct buf as [|c buf']; [simpl in *; lia|reflexivity].
  - assert (Hdiv : local ^ S (S j) / local = local ^ S j).
    { rewrite (Nat.pow_succ_r' local (S j)), Nat.mul_comm.
      apply Nat.div_mul. lia. }
    assert (Hpow : 2 <= local ^ S j).
    { rewrite Nat.pow_succ_r'.
      assert (1 <= local ^ j) by (apply Nat.neq_0_lt_0, Nat.pow_nonzero; lia).
      nia. }
    rewrite Hlen, Hdiv.
    destruct (Nat.ltb_spec 1 (local ^ S j)) as [_|Hge]; [|lia].
    set (st1 := loop_body (ascending maxwg) unary_op binary_op local global
                  aI st).
    assert (Hb1 : h_bufR st1
                  = foldl (fun buf g =>
                             work_group unary_op binary_op (h_passes st) local
                               (local ^ S j * local) aI buf g)
                          (h_bufR st)
                          (seq 0 (Nat.max global local / local))).
    { subst st1. unfold loop_body, submit. cbn [h_bufR h_passes h_length].
      rewrite parallel_for_ascending, Hlen.
      now rewrite (Nat.pow_succ_r' local (S j)), (Nat.mul_comm local). }
    assert (Hl1 : List.length (h_bufR st1) = List.length (h_bufR st)).
    { rewrite Hb1.
      apply (ascending_groups unary_op binary_op (h_passes st) local
               (local ^ S j * local) aI (h_bufR st)
               (Nat.max global local / local)). lia. }
    assert (Hp1 : h_passes st1 = S (h_passes st)) by reflexivity.
    assert (Hlen1 : h_length st1 = local ^ S j).
    { unfold st1. rewrite loop_body_length, Hlen. exact Hdiv. }
    assert (Hsrc1 : pass_source unary_op (h_passes st1) aI (h_bufR st1)
                    = h_bufR st1).
    { rewrite Hp1. reflexivity. }
    destruct (IH fuel st1) as (st' & Hdo & Hres).
    + exact Hl.
    + exact Hlen1.
    + rewrite Hsrc1, Hl1. exact Hbuf.
    + rewrite Hl1. rewrite Nat.pow_succ_r' in Hbuf. nia.
    + rewrite Nat.pow_succ_r' in Hng. nia.
    + lia.
    + exists st'. split; [exact Hdo|]. rewrite Hres, Hsrc1, Hb1.
      rewrite (Nat.pow_succ_r' local (S j)) in Hsrc |- *.
      rewrite (Nat.mul_comm local (local ^ S j)) in Hsrc |- *.
      apply exact_pass; try lia.
Qed.

End exact_passes.

(** ** Further properties of [transform_reduce] *)

Section further_properties.
Context {A T : Type}.
Variable exec : ExecutionPolicy.
Variable unary_op : A -> T.
Variable binary_op : T -> T -> T.

(** X1: on a non-empty range and a device whose maximal group size is at
    least 1, the call returns (after some number of iterations of its loop)
    exactly when the range has one element or the maximal group size is at
    least 2. *)
Theorem transform_reduce_returns_iff (s : list A) (init : T) :
  s <> [] -> 1 <= max_work_group_size exec ->
  (exists fuel r,
      transform_reduce exec unary_op binary_op fuel s init = Some r)
  <-> (length s = 1 \/ 2 <= max_work_group_size exec).
Proof.
  intros Hs Hm.
  assert (Hn : 1 <= length s) by (destruct s; [congruence|simpl; lia]).
  split.
  - intros (fuel & r & Hr).
    destruct (decide (length s = 1)) as [|Hn1]; [now left|right].
    destruct (decide (2 <= max_work_group_size exec)) as [|Hm2]; [assumption|].
    rewrite unit_group_size_never_returns in Hr by lia. discriminate.
  - intros [H1|H2].
    + exists 1. eexists. apply transform_reduce_one_pass; try assumption.
      rewrite H1. replace (Nat.min (max_work_group_size exec) 1) with 1 by lia.
      reflexivity.
    + destruct (decide (length s = 1)) as [H1|Hn1].
      * exists 1. eexists. apply transform_reduce_one_pass; try assumption.
        rewrite H1.
        replace (Nat.min (max_work_group_size exec) 1) with 1 by lia.
        reflexivity.
      * exists (length s). apply transform_reduce_returns; [assumption|lia].
Qed.

(** X2: after any number of iterations of the loop, the submission of pass
    [i] captured the logical length [n / local ^ i], where [n] is the
    length of the range. *)
Theorem submission_lengths fuel (s : list A) :
  let local := Nat.min (max_work_group_size exec) (length s) in
  submitted_lengths (h_trace (run_loop exec unary_op binary_op fuel s).1)
  = (fun i => length s / local ^ i)
      <$> seq 0 (h_passes (run_loop exec unary_op binary_op fuel s).1).
Proof.
  intros local. rewrite run_loop_trace, run_loop_passes.
  unfold submitted_lengths at 1. rewrite omap_app. simpl.
  apply submissions_lengths.
Qed.

(** X3: a call on a non-empty range that returns made [k >= 1]
    submissions, where [k] is the first positive exponent with
    [n / local ^ k <= 1]; with two or more submissions,
    [2 * local ^ (k - 1) <= n]. *)
Theorem pass_count fuel (s : list A) (init : T) r :
  s <> [] ->
  transform_reduce exec unary_op binary_op fuel s init = Some r ->
  let local := Nat.min (max_work_group_size exec) (length s) in
  let k := length (submitted_passes (actions r)) in
  1 <= k
  /\ length s / local ^ k <= 1
  /\ (forall j, 1 <= j < k -> 1 < length s / local ^ j)
  /\ (2 <= k -> 2 * local ^ (k - 1) <= length s).
Proof.
  intros Hs Hr local k.
  destruct (transform_reduce_returned _ _ _ _ _ _ _ Hs Hr) as (st & Hst & _ & Ha).
  assert (Hsub : submitted_passes
                   (h_trace (run_loop exec unary_op binary_op fuel s).1)
                 = seq 0 (h_passes (run_loop exec unary_op binary_op fuel s).1)).
  { rewrite run_loop_trace, run_loop_passes.
    unfold submitted_passes at 1. rewrite omap_app. simpl.
    apply submissions_passes. }
  rewrite Hst in Hsub. cbn [fst] in Hsub.
  assert (Hk : k = h_passes st).
  { subst k. rewrite Ha. unfold submitted_passes. rewrite omap_app.
    fold (submitted_passes (h_trace st)). rewrite Hsub. simpl.
    now rewrite app_nil_r, length_seq. }
  unfold run_loop in Hst.
  destruct (do_while_count _ _ _ _ _ _ _ _ _ Hst) as (k' & Hp & H1 & Hle & Hall).
  simpl in Hp, Hle, Hall. fold local in Hle, Hall.
  assert (k' = k) by lia. subst k'. clearbody k. subst k.
  split; [exact H1|]. split; [exact Hle|]. split; [exact Hall|].
  intros H2. specialize (Hall (h_passes st - 1) ltac:(lia)).
  pose proof (Nat.Div0.mul_div_le (length s) (local ^ (h_passes st - 1))).
  nia.
Qed.

(** X4: on a non-empty range and a device whose maximal group size is at
    least 1, every submission made so far launched the same range, sized
    once before the loop: its global size never shrinks with the logical
    length, is at least the group size, and so holds at least one group. *)
Theorem launch_range_fixed fuel (s : list A) :
  s <> [] -> 1 <= max_work_group_size exec ->
  let local := Nat.min (max_work_group_size exec) (length s) in
  let grange := Nat.max (calculateGlobalSize (length s) local) local in
  submitted_ranges (h_trace (run_loop exec unary_op binary_op fuel s).1)
  = replicate (h_passes (run_loop exec unary_op binary_op fuel s).1) grange
  /\ local <= grange
  /\ 1 <= grange / local.
Proof.
  intros Hs Hm local grange. split; [|split].
  - rewrite run_loop_trace, run_loop_passes.
    unfold submitted_ranges at 1. rewrite omap_app. simpl.
    apply submissions_ranges.
  - subst grange. lia.
  - apply Nat.div_str_pos. subst grange local.
    destruct s; [congruence|simpl length; lia].
Qed.

(** X5: on a range of one element [x] the call returns
    [binary_op (unary_op x) init] after a single submission, for any
    operators and any order of the groups. *)
Theorem single_element_result fuel (x : A) (init : T) :
  1 <= max_work_group_size exec -> 1 <= fuel ->
  transform_reduce exec unary_op binary_op fuel [x] init
  = Some {| ret := Val (binary_op (unary_op x) init);
            actions := [EvQueue; EvBufR 1; EvDeviceInfo; EvBufI 1;
                        EvSubmit 0 1 1 1; EvWait; EvHostRead 0] |}.
Proof.
  intros Hm Hf. destruct fuel as [|fuel]; [lia|].
  rewrite transform_reduce_one_pass; simpl length.
  - replace (Nat.min (max_work_group_size exec) 1) with 1 by lia. reflexivity.
  - discriminate.
  - exact Hm.
  - replace (Nat.min (max_work_group_size exec) 1) with 1 by lia.
    simpl. lia.
Qed.

(** X6: with an associative operator, a non-empty range that fits in one
    work-group is reduced to the left-to-right fold of its transformed
    elements, combined with [init] on the right, whatever the order of the
    groups. *)
Theorem one_group_fold fuel (x : A) (xs : list A) (init : T) :
  (forall a b c, binary_op a (binary_op b c) = binary_op (binary_op a b) c) ->
  length (x :: xs) <= max_work_group_size exec -> 1 <= fuel ->
  ret <$> transform_reduce exec unary_op binary_op fuel (x :: xs) init
  = Some (Val (binary_op (fold1 binary_op (unary_op x) (unary_op <$> xs))
                 init)).
Proof.
  intros Hassoc Hm Hf. destruct fuel as [|fuel]; [lia|].
  now apply transform_reduce_one_group.
Qed.

(** X7: when the first pass already brings the length down to at most 1
    ([n / local <= 1]), the outcome depends on the first [local] elements
    only: two ranges of the same length that agree on them give the same
    outcome, on any two devices with the same maximal group size. *)
Theorem one_pass_ignores_tail exec' fuel (s s' : list A) (init : T) :
  let local := Nat.min (max_work_group_size exec) (length s) in
  s <> [] -> 1 <= max_work_group_size exec ->
  max_work_group_size exec' = max_work_group_size exec ->
  length s' = length s ->
  length s / local <= 1 ->
  take local s' = take local s ->
  transform_reduce exec' unary_op binary_op (S fuel) s' init
  = transform_reduce exec unary_op binary_op (S fuel) s init.
Proof.
  intros local Hs Hm Hm' Hlen Hdiv Htake.
  assert (Hs' : s' <> []) by (destruct s, s'; simpl in *; congruence).
  rewrite !transform_reduce_one_pass; rewrite ?Hm', ?Hlen; try assumption.
  fold local. now rewrite Htake.
Qed.

End further_properties.

(** X8: on a device that runs the groups of every pass in ascending order
    and has a maximal group size [w >= 2], with an associative operator, a
    range of [w ^ k] elements ([k >= 1]) is reduced to the left-to-right
    fold of all its transformed elements, combined with [init] on the
    right. *)
Theorem power_length_fold {A T : Type} (unary_op : A -> T)
    (binary_op : T -> T -> T) maxwg k fuel (x : A) (xs : list A) (init : T) :
  (forall a b c, binary_op a (binary_op b c) = binary_op (binary_op a b) c) ->
  2 <= maxwg -> 1 <= k -> k <= fuel ->
  length (x :: xs) = maxwg ^ k ->
  ret <$> transform_reduce (ascending maxwg) unary_op binary_op fuel
            (x :: xs) init
  = Some (Val (binary_op (fold1 binary_op (unary_op x) (unary_op <$> xs))
                 init)).
Proof.
  intros Hassoc Hw Hk Hfuel Hlen.
  destruct k as [|j]; [lia|].
  assert (Hp : 1 <= maxwg ^ j) by (apply Nat.neq_0_lt_0, Nat.pow_nonzero; lia).
  assert (Hge : maxwg <= maxwg ^ S j) by (rewrite Nat.pow_succ_r'; nia).
  rewrite transform_reduce_nonempty by discriminate.
  unfold run_loop. cbn [max_work_group_size ascending]. rewrite Hlen.
  replace (Nat.min maxwg (maxwg ^ S j)) with maxwg by lia.
  destruct (do_while_power unary_op binary_op Hassoc maxwg maxwg
              (calculateGlobalSize (maxwg ^ S j) maxwg) (x :: xs) j fuel
              (loop_entry (x :: xs))) as (st' & Hdo & Hres).
  - exact Hw.
  - exact Hlen.
  - change (h_passes (loop_entry (x :: xs))) with 0.
    unfold pass_source. cbn [Nat.eqb]. rewrite length_fmap. lia.
  - change (h_bufR (loop_entry (x :: xs)))
      with (replicate (length (x :: xs)) (@Indet T)).
    rewrite length_replicate, Hlen, Nat.pow_succ_r'. nia.
  - apply Nat.div_le_lower_bound; [lia|].
    unfold calculateGlobalSize.
    assert (maxwg ^ j <= (maxwg ^ S j + maxwg - 1) / maxwg).
    { apply Nat.div_le_lower_bound; [lia|]. rewrite Nat.pow_succ_r'. lia. }
    nia.
  - lia.
  - rewrite Hdo. cbn [fmap option_fmap option_map ret].
    apply (f_equal (default (@Indet T))) in Hres. simpl default at 1 in Hres.
    rewrite Hres. simpl h_passes. unfold pass_source. cbn [Nat.eqb].
    rewrite take_ge by (rewrite length_fmap; lia).
    replace (Some <$> ((fun v => Val (unary_op v)) <$> x :: xs))
      with ((fun v => Some (Val v)) <$> unary_op x :: (unary_op <$> xs)).
    + now rewrite fold_scratch_values by exact Hassoc.
    + change (unary_op x :: (unary_op <$> xs)) with (unary_op <$> x :: xs).
      rewrite <- !list_fmap_compose. reflexivity.
Qed.

(** ** The further properties at concrete inputs *)

Lemma transform_reduce_returns_iff_witness :
  ([1; 2; 3] <> [] /\ 1 <= 2)
  /\ ((exists fuel r,
          transform_reduce (ascending 2) id Nat.add fuel [1; 2; 3] 0 = Some r)
      <-> (length [1; 2; 3] = 1 \/ 2 <= 2)).
Proof.
  split; [split; [discriminate|lia]|].
  apply (transform_reduce_returns_iff (ascending 2) id Nat.add [1; 2; 3] 0);
    [discriminate | simpl; lia].
Defined.

Lemma pass_count_witness :
  ([1; 2; 3; 4; 5; 6; 7; 8] <> []
   /\ transform_reduce (ascending 2) id Nat.add 3 [1; 2; 3; 4; 5; 6; 7; 8] 0
      = Some {| ret := Val 36;
                actions := [EvQueue; EvBufR 8; EvDeviceInfo; EvBufI 8;
                            EvSubmit 0 8 2 8; EvSubmit 1 4 2 8;
                            EvSubmit 2 2 2 8; EvWait; EvHostRead 0] |})
  /\ 1 <= 3
  /\ 8 / 2 ^ 3 <= 1
  /\ (forall j, 1 <= j < 3 -> 1 < 8 / 2 ^ j)
  /\ (2 <= 3 -> 2 * 2 ^ (3 - 1) <= 8).
Proof.
  split; [split; [discriminate|reflexivity]|].
  apply (pass_count (ascending 2) id Nat.add 3 [1; 2; 3; 4; 5; 6; 7; 8] 0
           {| ret := Val 36;
              actions := [EvQueue; EvBufR 8; EvDeviceInfo; EvBufI 8;
                          EvSubmit 0 8 2 8; EvSubmit 1 4 2 8;
                          EvSubmit 2 2 2 8; EvWait; EvHostRead 0] |});
    [discriminate|reflexivity].
Defined.

Lemma launch_range_fixed_witness :
  ([1; 2; 3; 4; 5; 6] <> [] /\ 1 <= 2)
  /\ submitted_ranges
       (h_trace (run_loop (ascending 2) id Nat.add 4 [1; 2; 3; 4; 5; 6]).1)
     = replicate
         (h_passes (run_loop (ascending 2) id Nat.add 4 [1; 2; 3; 4; 5; 6]).1)
         6
  /\ 2 <= 6
  /\ 1 <= 6 / 2.
Proof.
  split; [split; [discriminate|lia]|].
  apply (launch_range_fixed (ascending 2) id Nat.add 4 [1; 2; 3; 4; 5; 6]);
    [discriminate | simpl; lia].
Defined.

Lemma single_element_result_witness :
  (1 <= 4 /\ 1 <= 1)
  /\ transform_reduce (descending 4) S Nat.sub 1 [7] 2
     = Some {| ret := Val 6;
               actions := [EvQueue; EvBufR 1; EvDeviceInfo; EvBufI 1;
                           EvSubmit 0 1 1 1; EvWait; EvHostRead 0] |}.
Proof.
  split; [lia|].
  apply (single_element_result (descending 4) S Nat.sub 1 7 2); simpl; lia.
Defined.

Lemma one_group_fold_witness :
  ((forall a b c : list nat, a ++ (b ++ c) = (a ++ b) ++ c)
   /\ length [1; 2; 3] <= 4 /\ 1 <= 1)
  /\ ret <$> transform_reduce (descending 4) (fun x => [x]) app 1
               [1; 2; 3] [0]
     = Some (Val [1; 2; 3; 0]).
Proof.
  split; [split; [intros; apply app_assoc | simpl; lia]|].
  apply (one_group_fold (descending 4) (fun x : nat => [x]) app 1 1 [2; 3] [0]);
    [intros; apply app_assoc | simpl; lia | lia].
Defined.

Lemma one_pass_ignores_tail_witness :
  ([1; 2; 3] <> [] /\ 1 <= 2 /\ 2 = 2
   /\ length [1; 2; 9] = length [1; 2; 3]
   /\ 3 / 2 <= 1
   /\ take 2 [1; 2; 9] = take 2 [1; 2; 3])
  /\ transform_reduce (descending 2) id Nat.add 1 [1; 2; 9] 0
     = transform_reduce (ascending 2) id Nat.add 1 [1; 2; 3] 0.
Proof.
  split; [repeat split; (discriminate || simpl; lia)|].
  apply (one_pass_ignores_tail (ascending 2) id Nat.add (descending 2) 0
           [1; 2; 3] [1; 2; 9] 0);
    first [discriminate | reflexivity | simpl; lia].
Defined.

Lemma power_length_fold_witness :
  ((forall a b c : list nat, a ++ (b ++ c) = (a ++ b) ++ c)
   /\ 2 <= 2 /\ 1 <= 2 /\ 2 <= 2
   /\ length [1; 2; 3; 4] = 2 ^ 2)
  /\ ret <$> transform_reduce (ascending 2) (fun x => [x]) app 2
               [1; 2; 3; 4] [0]
     = Some (Val [1; 2; 3; 4; 0]).
Proof.
  split; [split; [intros; apply app_assoc | repeat split; lia]|].
  apply (power_length_fold (fun x : nat => [x]) app 2 2 2 1 [2; 3; 4] [0]);
    first [intros; apply app_assoc | reflexivity | lia].
Defined.

(** X9: with an associative operator, when the first pass already brings
    the length down to at most 1 ([n / local <= 1]), the call returns the
    left-to-right fold of the first [local] transformed elements, combined
    with [init] on the right; the elements from index [local] on do not
    enter the result. *)
Theorem one_pass_folds_prefix {A T : Type} (exec : ExecutionPolicy)
    (unary_op : A -> T) (binary_op : T -> T -> T) fuel (x : A) (xs : list A)
    (init : T) :
  let local := Nat.min (max_work_group_size exec) (length (x :: xs)) in
  (forall a b c, binary_op a (binary_op b c) = binary_op (binary_op a b) c) ->
  1 <= max_work_group_size exec -> 1 <= fuel ->
  length (x :: xs) / local <= 1 ->
  ret <$> transform_reduce exec unary_op binary_op fuel (x :: xs) init
  = Some (Val (binary_op
                 (fold1 binary_op (unary_op x)
                    (unary_op <$> take (local - 1) xs))
                 init)).
Proof.
  intros local Hassoc Hm Hf Hdiv. destruct fuel as [|fuel]; [lia|].
  now apply transform_reduce_one_pass_fold.
Qed.

Lemma one_pass_folds_prefix_witness :
  ((forall a b c : list nat, a ++ (b ++ c) = (a ++ b) ++ c)
   /\ 1 <= 3 /\ 1 <= 1 /\ 5 / 3 <= 1)
  /\ ret <$> transform_reduce (descending 3) (fun x => [x]) app 1
               [1; 2; 3; 4; 5] [0]
     = Some (Val [1; 2; 3; 0]).
Proof.
  split; [split; [intros; apply app_assoc | repeat split; simpl; lia]|].
  apply (one_pass_folds_prefix (descending 3) (fun x : nat => [x]) app 1 1
           [2; 3; 4; 5] [0]);
    first [intros; apply app_assoc | simpl; lia].
Defined.

(** ** What the kernel of each submission does to the buffer *)





Section pass_effect.
Context {A T : Type}.
Variable exec : ExecutionPolicy.
Variable unary_op : A -> T.
Variable binary_op : T -> T -> T.

Import ReductionStrategy.









End pass_effect.

Section pass_properties.
Context {A T : Type}.
Variable exec : ExecutionPolicy.
Variable unary_op : A -> T.
Variable binary_op : T -> T -> T.

Import ReductionStrategy.





(** C8: on a non-empty range and a device whose maximal group size is at
    least 1, as soon as the loop has run once the first submission has been
    made with the group size [min maxGroupSize length], which is positive,
    and every submission made so far carries that same group size, while
    the logical length it carries has shrunk to [n / local ^ i] at pass
    [i]. *)
Theorem local_size_fixed fuel (s : list A) :
  s <> [] -> 1 <= max_work_group_size exec -> 1 <= fuel ->
  let local := Nat.min (max_work_group_size exec) (length s) in
  let grange := Nat.max (calculateGlobalSize (length s) local) local in
  let st := (run_loop exec unary_op binary_op fuel s).1 in
  1 <= h_passes st
  /\ (exists rest,
         h_trace st
         = [EvQueue; EvBufR (length s); EvDeviceInfo; EvBufI (length s);
            EvSubmit 0 (length s) local grange] ++ rest)
  /\ submitted_locals (h_trace st) = replicate (h_passes st) local
  /\ Forall (fun l => 0 < l) (submitted_locals (h_trace st))
  /\ submitted_lengths (h_trace st)
     = (fun i => length s / local ^ i) <$> seq 0 (h_passes st).
Proof.
  intros Hs Hm Hf local grange st.
  assert (Hn : 1 <= length s) by (destruct s; [congruence|simpl; lia]).
  assert (Hloc : submitted_locals (h_trace st) = replicate (h_passes st) local).
  { subst st. rewrite run_loop_trace, run_loop_passes.
    unfold submitted_locals at 1. rewrite omap_app. simpl.
    apply submissions_locals. }
  split; [|split; [|split; [|split]]].
  - subst st. rewrite run_loop_passes.
    destruct fuel as [|fuel]; [lia|]. simpl. lia.
  - subst st. rewrite run_loop_trace.
    destruct fuel as [|fuel]; [lia|]. cbn [submissions].
    eexists. reflexivity.
  - exact Hloc.
  - rewrite Hloc. apply Forall_replicate. subst local. lia.
  - subst st. rewrite run_loop_trace, run_loop_passes.
    unfold submitted_lengths at 1. rewrite omap_app. simpl.
    apply submissions_lengths.
Qed.


End pass_properties.



Lemma local_size_fixed_witness :
  ([1; 2; 3; 4; 5; 6; 7; 8] <> [] /\ 1 <= 2 /\ 1 <= 7)
  /\ 1 <= 3
  /\ (exists rest,
         [EvQueue; EvBufR 8; EvDeviceInfo; EvBufI 8;
          EvSubmit 0 8 2 8; EvSubmit 1 4 2 8; EvSubmit 2 2 2 8]
         = [EvQueue; EvBufR 8; EvDeviceInfo; EvBufI 8; EvSubmit 0 8 2 8]
           ++ rest)
  /\ submitted_locals
       (h_trace (run_loop (ascending 2) id Nat.add 7
                   [1; 2; 3; 4; 5; 6; 7; 8]).1)
     = [2; 2; 2]
  /\ Forall (fun l => 0 < l) [2; 2; 2]
  /\ submitted_lengths
       (h_trace (run_loop (ascending 2) id Nat.add 7
                   [1; 2; 3; 4; 5; 6; 7; 8]).1)
     = [8; 4; 2].
Proof.
  split; [repeat split; (discriminate || lia)|].
  apply (local_size_fixed (ascending 2) id Nat.add 7 [1; 2; 3; 4; 5; 6; 7; 8]);
    [discriminate | simpl; lia | lia].
Defined.


